(** * A shallow embedding of the discord-menus flow engine

    [Phase.ts] (the step with its collection phase), [PromptRunner]
    (validation and traversal) and [PromptNode] (local validation and
    branch selection).

    Modelling choices, all following the TypeScript source:
    - a tree of steps is the inductive [phase]; object identity (the [===]
      used by [ran.indexOf]) is the field [p_id];
    - optional members ([function?], [condition?]) are [option]s;
    - a JS number used as a duration is a [Z]; it is truthy iff it is not 0;
    - asynchronous code runs in a state and error monad [M]: the state holds
      the clock, the messages still to arrive on the channel, the effects
      performed so far (sends, stored messages, timer operations, ...), the
      set of nodes whose children were cleared by [terminateHere], and the
      runner's [ran] trace;
    - a collection function returns its outcome: new data, a [Rejection]
      (with its message, the empty string when none was given) or another
      thrown error; a branch condition is a boolean function of the data;
    - [channel.send] resolves with a message whose content is the sent text;
    - the collector delivers messages in arrival order, and honours [stop]:
      once the phase has settled, later messages go to the next phase. *)

From Stdlib Require Import List String ZArith Bool Lia.
Import ListNotations.
Set Warnings "-register-all".

(** ** Messages, outcomes and effects *)

Record message := Message { content : string }.

(** The errors of the program: an error thrown by a collection function,
    and the error [run] throws for an invalid tree. *)
Inductive js_error :=
| Thrown (name : string)
| InvalidPrompt.

(** What a collection function [f(message, data)] does. *)
Inductive func_outcome (D : Type) :=
| Returns (d : D)
| ThrowsRejection (msg : string)
| ThrowsError (e : string).
Arguments Returns {D} d.
Arguments ThrowsRejection {D} msg.
Arguments ThrowsError {D} e.

(** Observable effects, in the order the code performs them. *)
Inductive effect :=
| ESend (text : string)                (* channel.send({ text }) *)
| EStore (id : nat) (m : message)      (* phase.storeMessage(m) *)
| ECreateCollector (id : nat)          (* this.createCollector(...) *)
| ESetTimeout (duration : Z)           (* setTimeout(cb, duration) *)
| EClearTimeout                        (* clearTimeout(timer) *)
| ETimerFired                          (* the setTimeout callback runs *)
| EStop                                (* emitter.emit('stop') *)
| ECallFunc (id : nat)                 (* func(message, data) *)
| EEvalCond (id : nat)                 (* child.condition(data) *)
| EClearChildren (id : nat).           (* this.setChildren([]) *)

(** ** Steps (Phase) and their trees *)

Section Tree.
Context {D : Type}.

Inductive phase :=
| Phase (p_id : nat)
        (formatGenerator : D -> string)
        (p_function : option (message -> D -> func_outcome D))
        (p_condition : option (D -> bool))
        (duration : Z)
        (children : list phase).

Definition p_id (p : phase) : nat := let 'Phase i _ _ _ _ _ := p in i.
Definition formatGenerator (p : phase) : D -> string :=
  let 'Phase _ g _ _ _ _ := p in g.
Definition p_function (p : phase) := let 'Phase _ _ f _ _ _ := p in f.
Definition p_condition (p : phase) := let 'Phase _ _ _ c _ _ := p in c.
Definition duration (p : phase) : Z := let 'Phase _ _ _ _ d _ := p in d.
Definition children (p : phase) : list phase :=
  let 'Phase _ _ _ _ _ cs := p in cs.

(** [!child.condition] *)
Definition has_condition (p : phase) : bool :=
  match p_condition p with Some _ => true | None => false end.

(** [PromptRunner.valid]: the [for ... of] loop returns [false] at the
    first child that lacks a condition (when there are several) or whose
    subtree is invalid. *)
Fixpoint valid (p : phase) : bool :=
  match p with
  | Phase _ _ _ _ _ cs =>
      let multipleChildren := Nat.ltb 1 (List.length cs) in
      (fix loop (l : list phase) : bool :=
         match l with
         | [] => true
         | child :: rest =>
             if multipleChildren && negb (has_condition child) then false
             else if negb (valid child) then false
             else loop rest
         end) cs
  end.

(** [PromptNode.hasValidChildren]: local check, no recursion. *)
Definition hasValidChildren (p : phase) : bool :=
  let cs := children p in
  if Nat.leb (List.length cs) 1 then true
  else
    (fix loop (l : list phase) : bool :=
       match l with
       | [] => true
       | child :: rest => if negb (has_condition child) then false else loop rest
       end) cs.

(** The nodes reachable from a root through [children]. *)
Inductive reachable : phase -> phase -> Prop :=
| reach_here p : reachable p p
| reach_child p c n : In c (children p) -> reachable c n -> reachable p n.

(** A node's local rule: with several children, each has a condition. *)
Definition children_conditioned (n : phase) : Prop :=
  1 < List.length (children n) ->
  forall c, In c (children n) -> has_condition c = true.

(** Induction over trees, with a hypothesis for every child. *)
Section PhaseInd.
Variable P : phase -> Prop.
Hypothesis IH : forall i g f c d cs,
  (forall x, In x cs -> P x) -> P (Phase i g f c d cs).

Fixpoint phase_ind' (p : phase) : P p :=
  match p with
  | Phase i g f c d cs =>
      IH i g f c d cs
        ((fix go (l : list phase) : forall x, In x l -> P x :=
            match l with
            | [] => fun x H => match H with end
            | y :: l' => fun x H =>
                match H with
                | or_introl E => eq_ind y P (phase_ind' y) x E
                | or_intror H' => go l' x H'
                end
            end) cs)
  end.
End PhaseInd.

End Tree.
Arguments phase D : clear implicits.

(** ** The effect monad *)

(** What the program has done so far, and what the channel still holds. *)
Record state := State {
  now : Z;                          (* the clock of the event loop, in ms *)
  inbox : list (Z * message);       (* messages still to arrive, with times *)
  log : list effect;                (* effects performed, oldest first *)
  cleared : list nat;               (* phases whose children were set to [] *)
  ran : list nat                    (* PromptRunner.ran *)
}.

(** How a computation ends: with a value, with a thrown (rejected) error,
    still pending when the channel has no more messages to deliver, or
    without fuel. *)
Inductive result (A : Type) :=
| Ok (a : A)
| Err (e : js_error)
| Pending
| OutOfFuel.
Arguments Ok {A} a.
Arguments Err {A} e.
Arguments Pending {A}.
Arguments OutOfFuel {A}.

Definition M (A : Type) : Type := state -> result A * state.

Definition ret {A} (a : A) : M A := fun s => (Ok a, s).
Definition throw {A} (e : js_error) : M A := fun s => (Err e, s).
Definition pending {A} : M A := fun s => (Pending, s).
Definition out_of_fuel {A} : M A := fun s => (OutOfFuel, s).

Definition bind {A B} (m : M A) (k : A -> M B) : M B :=
  fun s =>
    let (r, s') := m s in
    match r with
    | Ok a => k a s'
    | Err e => (Err e, s')
    | Pending => (Pending, s')
    | OutOfFuel => (OutOfFuel, s')
    end.

Notation "x <- m ;; k" := (bind m (fun x => k))
  (at level 61, m at next level, right associativity).
Notation "m ;;; k" := (bind m (fun _ => k))
  (at level 61, right associativity).

Definition emit (e : effect) : M unit :=
  fun s => (Ok tt, {| now := now s; inbox := inbox s; log := log s ++ [e];
                      cleared := cleared s; ran := ran s |}).
(** The same state with another effect log. *)
Definition with_log (s : state) (l : list effect) : state :=
  {| now := now s; inbox := inbox s; log := l; cleared := cleared s; ran := ran s |}.

Definition get_now : M Z := fun s => (Ok (now s), s).
Definition get_inbox : M (list (Z * message)) := fun s => (Ok (inbox s), s).
Definition set_now (t : Z) : M unit :=
  fun s => (Ok tt, {| now := t; inbox := inbox s; log := log s;
                      cleared := cleared s; ran := ran s |}).
Definition set_inbox (l : list (Z * message)) : M unit :=
  fun s => (Ok tt, {| now := now s; inbox := l; log := log s;
                      cleared := cleared s; ran := ran s |}).
Definition mark_cleared (i : nat) : M unit :=
  fun s => (Ok tt, {| now := now s; inbox := inbox s; log := log s;
                      cleared := i :: cleared s; ran := ran s |}).
Definition get_cleared : M (list nat) := fun s => (Ok (cleared s), s).
Definition push_ran (i : nat) : M unit :=
  fun s => (Ok tt, {| now := now s; inbox := inbox s; log := log s;
                      cleared := cleared s; ran := ran s ++ [i] |}).

(** [channel.send({ text })]: resolves with the sent message. *)
Definition send (text : string) : M message :=
  emit (ESend text);;; ret (Message text).

(** Node's [setTimeout] runs a callback after [delay] ms, where a delay
    below 1 or above 2147483647 is replaced by 1. *)
Definition node_delay (d : Z) : Z :=
  if (d <? 1)%Z || (2147483647 <? d)%Z then 1%Z else d.

(** ** Phase *)

(** [Phase.STRINGS] *)
Definition exit_string : string := "Menu has been closed.".
Definition inactivity_string : string :=
  "Menu has been closed due to inactivity.".
Definition rejected_string : string := "That is not a valid input. Try again.".

Section PhaseCode.
Context {D : Type}.
Local Abbreviation phase := (phase D).

(** [PhaseReturnData<T>] *)
Record phase_return := PhaseReturn { pr_message : option message; pr_data : D }.

(** How the promise built by [collect] settles. *)
Inductive settlement :=
| Resolved (r : phase_return)
| Rejected (e : js_error).

(** The events a collector emits. *)
Inductive collector_event :=
| CAccept (m : message) (d : D)
| CReject (m : message) (rejection_message : string)
| CExit (m : message)
| CError (m : message) (e : string)
| CInactivity.

(** [storeMessage] *)
Definition storeMessage (p : phase) (m : message) : M unit :=
  emit (EStore (p_id p) m).

(** [sendMessage] *)
Definition sendMessage (p : phase) (data : D) : M message :=
  sent <- send (formatGenerator p data);;
  storeMessage p sent;;;
  ret sent.

(** [terminateHere] *)
Definition terminateHere (p : phase) (terminateString : string) : M message :=
  emit (EClearChildren (p_id p));;;
  mark_cleared (p_id p);;;
  sent <- send terminateString;;
  storeMessage p sent;;;
  ret sent.

(** The children of a phase as they are now: [terminateHere] replaced them
    by [] on the (shared) phase object. *)
Definition children_in (cl : list nat) (p : phase) : list phase :=
  if existsb (Nat.eqb (p_id p)) cl then [] else children p.

Definition current_children (p : phase) : M (list phase) :=
  cl <- get_cleared;;
  ret (children_in cl p).

(** The listeners [collect] registers on its collector; the result says
    whether the listener settled [collect]'s promise. *)
Definition on_event (p : phase) (data : D) (ev : collector_event)
  : M (option settlement) :=
  match ev with
  | CError lastUserInput err =>
      storeMessage p lastUserInput;;;
      ret (Some (Rejected (Thrown err)))
  | CInactivity =>
      sent <- terminateHere p inactivity_string;;
      ret (Some (Resolved (PhaseReturn (Some sent) data)))
  | CExit exitMessage =>
      storeMessage p exitMessage;;;
      sent <- terminateHere p exit_string;;
      ret (Some (Resolved (PhaseReturn (Some sent) data)))
  | CAccept acceptMessage acceptData =>
      storeMessage p acceptMessage;;;
      ret (Some (Resolved (PhaseReturn (Some acceptMessage) acceptData)))
  | CReject userInput rejection_message =>
      storeMessage p userInput;;;
      let invalidFeedback :=
        if String.eqb rejection_message "" then rejected_string
        else rejection_message in
      m <- send invalidFeedback;;
      storeMessage p m;;;
      ret None
  end.

(** [Phase.handleMessage]: the emitted event goes to the listeners; the
    boolean is [stopCollecting]. *)
Definition handleMessage (p : phase) (func : message -> D -> func_outcome D)
  (data : D) (m : message) : M (option settlement * bool) :=
  if String.eqb (content m) "exit" then
    r <- on_event p data (CExit m);; ret (r, true)
  else
    emit (ECallFunc (p_id p));;;
    match func m data with
    | Returns newData =>
        r <- on_event p data (CAccept m newData);; ret (r, true)
    | ThrowsRejection msg =>
        r <- on_event p data (CReject m msg);; ret (r, false)
    | ThrowsError err =>
        r <- on_event p data (CError m err);; ret (r, true)
    end.

(** The ['message'] listener of [Phase.handleCollector]. *)
Definition on_message (p : phase) (func : message -> D -> func_outcome D)
  (data : D) (m : message) : M (option settlement) :=
  rs <- handleMessage p func data m;;
  let (r, stopCollecting) := rs in
  if stopCollecting then emit EStop;;; emit EClearTimeout;;; ret r
  else ret r.

(** The [setTimeout] callback of [Phase.handleCollector]. *)
Definition on_timer (p : phase) (data : D) : M (option settlement) :=
  emit ETimerFired;;;
  emit EStop;;;
  on_event p data CInactivity.

(** The event loop during a collection phase: the next message is
    delivered unless the armed timer is due first. *)
Fixpoint wait (p : phase) (func : message -> D -> func_outcome D) (data : D)
  (deadline : option Z) (msgs : list (Z * message)) : M settlement :=
  let fire (t : Z) :=
    set_now t;;;
    r <- on_timer p data;;
    match r with Some s => ret s | None => pending end in
  match msgs with
  | [] =>
      match deadline with
      | Some t => fire t
      | None => pending
      end
  | (t, m) :: rest =>
      match deadline with
      | Some dl => if (dl <=? t)%Z then fire dl else
          set_now t;;; set_inbox rest;;;
          r <- on_message p func data m;;
          match r with Some s => ret s | None => wait p func data deadline rest end
      | None =>
          set_now t;;; set_inbox rest;;;
          r <- on_message p func data m;;
          match r with Some s => ret s | None => wait p func data deadline rest end
      end
  end.

(** [Phase.handleCollector]'s timer: armed only when [duration] is truthy;
    returns when it will fire. *)
Definition arm_timer (duration : Z) : M (option Z) :=
  if (duration =? 0)%Z then ret None
  else
    emit (ESetTimeout duration);;;
    t <- get_now;;
    ret (Some (t + node_delay duration)%Z).

(** [Phase.collect] *)
Definition collect (p : phase) (data : D) : M phase_return :=
  match p_function p with
  | None => ret (PhaseReturn None data)
  | Some func =>
      emit (ECreateCollector (p_id p));;;
      deadline <- arm_timer (duration p);;
      msgs <- get_inbox;;
      s <- wait p func data deadline msgs;;
      match s with
      | Resolved r => ret r
      | Rejected e => throw e
      end
  end.

(** [Phase.getNext] and [PromptNode.getNext]: the first child without a
    condition or whose condition holds, conditions evaluated in order. *)
Definition getNext (p : phase) (data : D) : M (option phase) :=
  cs <- current_children p;;
  (fix loop (l : list phase) : M (option phase) :=
     match l with
     | [] => ret None
     | child :: rest =>
         match p_condition child with
         | None => ret (Some child)
         | Some cond =>
             emit (EEvalCond (p_id child));;;
             if cond data then ret (Some child) else loop rest
         end
     end) cs.

(** A child [getNext] may enter: no condition, or its condition holds. *)
Definition eligible (data : D) (child : phase) : bool :=
  match p_condition child with None => true | Some cond => cond data end.

(** [Phase.shouldRunCollector] *)
Definition shouldRunCollector (p : phase) : bool := true.

End PhaseCode.

(** The state once the next message, arriving at [t], is taken. *)
Definition advance (s : state) (t : Z) (rest : list (Z * message)) : state :=
  {| now := t; inbox := rest; log := log s; cleared := cleared s; ran := ran s |}.

(** A message at [t] comes before the armed timer (if any) fires. *)
Definition before_deadline (deadline : option Z) (t : Z) : bool :=
  match deadline with Some dl => (t <? dl)%Z | None => true end.

(** When the timer armed at the start of a phase fires, if it is armed. *)
Definition deadline_of {D} (s : state) (p : phase D) : option Z :=
  if (duration p =? 0)%Z then None
  else Some (now s + node_delay (duration p))%Z.

(** The timer operations at the start of a phase. *)
Definition timer_effects {D} (p : phase D) : list effect :=
  if (duration p =? 0)%Z then [] else [ESetTimeout (duration p)].

(** ** PromptRunner *)

Section Runner.
Context {D : Type}.
Local Abbreviation phase := (phase D).

(** The length of the longest root-to-leaf path: enough iterations of the
    traversal loop, which goes one level down per iteration. *)
Fixpoint height (p : phase) : nat :=
  match p with
  | Phase _ _ _ _ _ cs => S (fold_right (fun c acc => Nat.max (height c) acc) 0 cs)
  end.

(** The [while] loop of [PromptRunner.execute]; the phase plays the
    runner's prompt, [sendUserFormatMessage] is [Phase.sendMessage], and
    the data carried forward is the [data] that [collect] resolves with. *)
Fixpoint execute_loop (fuel : nat) (thisPrompt : option phase) (thisData : D)
  : M unit :=
  match thisPrompt with
  | None => ret tt
  | Some p =>
      if shouldRunCollector p then
        match fuel with
        | O => out_of_fuel
        | S fuel' =>
            promptData <- collect p thisData;;
            next <- getNext p (pr_data promptData);;
            match next with
            | Some c =>
                sendMessage c (pr_data promptData);;;
                push_ran (p_id c);;;
                execute_loop fuel' (Some c) (pr_data promptData)
            | None => execute_loop fuel' None (pr_data promptData)
            end
        end
      else ret tt
  end.

(** [PromptRunner.execute] *)
Definition execute (initialData : D) (initialPrompt : phase) : M unit :=
  push_ran (p_id initialPrompt);;;
  sendMessage initialPrompt initialData;;;
  execute_loop (height initialPrompt) (Some initialPrompt) initialData.

(** [PromptRunner.valid] on the tree as it is when it is called: a node
    whose children [terminateHere] replaced by [] has no children, and the
    loop over them returns [true] at once. *)
Fixpoint valid_in (cl : list nat) (p : phase) : bool :=
  match p with
  | Phase i _ _ _ _ cs =>
      if existsb (Nat.eqb i) cl then true
      else
        let multipleChildren := Nat.ltb 1 (List.length cs) in
        (fix loop (l : list phase) : bool :=
           match l with
           | [] => true
           | child :: rest =>
               if multipleChildren && negb (has_condition child) then false
               else if negb (valid_in cl child) then false
               else loop rest
           end) cs
  end.

(** [PromptRunner.run] *)
Definition run (initialData : D) (prompt : phase) : M unit :=
  cl <- get_cleared;;
  if negb (valid_in cl prompt) then throw InvalidPrompt
  else execute initialData prompt.

End Runner.

(** ** Trace queries and tree edits *)

(** [Array.prototype.indexOf] on [PromptRunner.ran]: the first position
    [k] (counting from the start) holding the prompt, or -1. *)
Fixpoint index_loop (l : list nat) (x : nat) (k : Z) : Z :=
  match l with
  | [] => (-1)%Z
  | y :: rest => if Nat.eqb y x then k else index_loop rest x (k + 1)%Z
  end.

(** [PromptRunner.indexOf] *)
Definition indexOf {D} (ran : list nat) (prompt : phase D) : Z :=
  index_loop ran (p_id prompt) 0.

(** [PromptRunner.indexesOf] *)
Definition indexesOf {D} (ran : list nat) (prompts : list (phase D)) : list Z :=
  map (fun prompt => indexOf ran prompt) prompts.

(** [PromptNode.setChildren] *)
Definition setChildren {D} (p : phase D) (nodes : list (phase D)) : phase D :=
  match p with Phase i g f c d _ => Phase i g f c d nodes end.

(** [PromptNode.addChild]: [this.children.push(node)]. *)
Definition addChild {D} (p : phase D) (node : phase D) : phase D :=
  match p with Phase i g f c d cs => Phase i g f c d (cs ++ [node]) end.

(** The loop of [getNext], over a given list of children. *)
Definition select_loop {D} (data : D) : list (phase D) -> M (option (phase D)) :=
  fix loop (l : list (phase D)) : M (option (phase D)) :=
    match l with
    | [] => ret None
    | child :: rest =>
        match p_condition child with
        | None => ret (Some child)
        | Some cond =>
            emit (EEvalCond (p_id child));;;
            if cond data then ret (Some child) else loop rest
        end
    end.

(** A downward path: each node is a child of the one before. *)
Fixpoint is_path {D} (p : phase D) (path : list (phase D)) : Prop :=
  match path with
  | [] => True
  | c :: rest => In c (children p) /\ is_path c rest
  end.

(** The effects of a rejected message, as [on_message] performs them. *)
Definition feedback_of {D} (func : message -> D -> func_outcome D) (data : D)
  (m : message) : string :=
  match func m data with
  | ThrowsRejection s => if String.eqb s "" then rejected_string else s
  | _ => ""
  end.

Definition reject_effects {D} (p : phase D) func (data : D) (m : message)
  : list effect :=
  [ECallFunc (p_id p); EStore (p_id p) m; ESend (feedback_of func data m);
   EStore (p_id p) (Message (feedback_of func data m))].

(** Messages that arrive before the deadline and are rejected. *)
Definition all_rejected {D} (func : message -> D -> func_outcome D) (data : D)
  (dl : option Z) (msgs : list (Z * message)) : Prop :=
  Forall (fun tm => before_deadline dl (fst tm) = true /\
                    content (snd tm) <> "exit"%string /\
                    exists s, func (snd tm) data = ThrowsRejection s) msgs.

(** ** Sample trees, with numbers as the data *)

Definition fmt (n : nat) : string := "prompt".
Definition accept_all : message -> nat -> func_outcome nat :=
  fun m d => Returns (S d).
Definition leaf (i : nat) (c : option (nat -> bool)) : phase nat :=
  Phase i fmt (Some accept_all) c 60000%Z [].
Definition init_state (msgs : list (Z * message)) : state :=
  {| now := 0; inbox := msgs; log := []; cleared := []; ran := [] |}.
Definition msg (s : string) : message := Message s.

(** How many times a log arms a timer. *)
Definition timers_armed (l : list effect) : nat :=
  List.length (filter (fun e => match e with ESetTimeout _ => true | _ => false end) l).

Definition reject_all : message -> nat -> func_outcome nat :=
  fun m d => ThrowsRejection "".
Definition error_all : message -> nat -> func_outcome nat :=
  fun m d => ThrowsError "boom".
Definition rejecting_step : phase nat :=
  Phase 2 fmt (Some reject_all) None 60000%Z [].
Definition failing_step : phase nat :=
  Phase 3 fmt (Some error_all) None 60000%Z [].
Definition display_step : phase nat :=
  Phase 4 fmt None None 60000%Z [leaf 5 None].

(** A collecting step whose duration is 0. *)
Definition no_timeout_step : phase nat :=
  Phase 1 fmt (Some accept_all) None 0%Z [].

(** A collecting step with two children and no conditions: not valid. *)
Definition fork_step : phase nat :=
  Phase 10 fmt (Some accept_all) None 60000%Z [leaf 11 None; leaf 12 None].

(** A collecting step with one child. *)
Definition parent_step : phase nat :=
  Phase 8 fmt (Some accept_all) None 60000%Z [leaf 9 None].

(** A step that accepts only the answer "yes". *)
Definition picky : message -> nat -> func_outcome nat :=
  fun m d => if String.eqb (content m) "yes" then Returns (S d)
             else ThrowsRejection "say yes".
Definition picky_step : phase nat :=
  Phase 6 fmt (Some picky) None 60000%Z [].

(** ** Monad facts *)

Lemma bind_emit {A} (e : effect) (k : unit -> M A) (s : state) :
  bind (emit e) k s = k tt (with_log s (log s ++ [e])).
Proof. reflexivity. Qed.

Lemma bind_ret {A B} (a : A) (k : A -> M B) (s : state) :
  bind (ret a) k s = k a s.
Proof. reflexivity. Qed.

Lemma with_log_id (s : state) : with_log s (log s) = s.
Proof. now destruct s. Qed.

Lemma with_log_twice (s : state) l1 l2 :
  with_log (with_log s l1) l2 = with_log s l2.
Proof. reflexivity. Qed.

(** ** One message, and the timer *)

Ltac run_monad :=
  repeat (cbn; rewrite ?bind_emit, ?bind_ret);
  cbn; rewrite <- ?app_assoc; try reflexivity.

Section Handlers.
Context {D : Type}.
Variables (p : phase D) (func : message -> D -> func_outcome D) (data : D).

Lemma on_message_exit (m : message) (st : state) :
  content m = "exit"%string ->
  on_message p func data m st =
  (Ok (Some (Resolved (PhaseReturn (Some (Message exit_string)) data))),
   {| now := now st; inbox := inbox st;
      log := log st ++ [EStore (p_id p) m; EClearChildren (p_id p);
                        ESend exit_string; EStore (p_id p) (Message exit_string);
                        EStop; EClearTimeout];
      cleared := p_id p :: cleared st; ran := ran st |}).
Proof. intros H. unfold on_message, handleMessage. rewrite H. run_monad. Qed.

Lemma on_message_accept (m : message) (d' : D) (st : state) :
  content m <> "exit"%string -> func m data = Returns d' ->
  on_message p func data m st =
  (Ok (Some (Resolved (PhaseReturn (Some m) d'))),
   with_log st (log st ++ [ECallFunc (p_id p); EStore (p_id p) m; EStop;
                           EClearTimeout])).
Proof.
  intros Hm Hf. apply String.eqb_neq in Hm.
  unfold on_message, handleMessage. rewrite Hm, Hf. run_monad.
Qed.

Lemma on_message_reject (m : message) (msg : string) (st : state) :
  content m <> "exit"%string -> func m data = ThrowsRejection msg ->
  let feedback := if String.eqb msg "" then rejected_string else msg in
  on_message p func data m st =
  (Ok None,
   with_log st (log st ++ [ECallFunc (p_id p); EStore (p_id p) m;
                           ESend feedback; EStore (p_id p) (Message feedback)])).
Proof.
  intros Hm Hf. apply String.eqb_neq in Hm.
  unfold on_message, handleMessage. rewrite Hm, Hf. run_monad.
Qed.

Lemma on_message_error (m : message) (e : string) (st : state) :
  content m <> "exit"%string -> func m data = ThrowsError e ->
  on_message p func data m st =
  (Ok (Some (Rejected (Thrown e))),
   with_log st (log st ++ [ECallFunc (p_id p); EStore (p_id p) m; EStop;
                           EClearTimeout])).
Proof.
  intros Hm Hf. apply String.eqb_neq in Hm.
  unfold on_message, handleMessage. rewrite Hm, Hf. run_monad.
Qed.

Lemma on_timer_eq (st : state) :
  on_timer p data st =
  (Ok (Some (Resolved (PhaseReturn (Some (Message inactivity_string)) data))),
   {| now := now st; inbox := inbox st;
      log := log st ++ [ETimerFired; EStop; EClearChildren (p_id p);
                        ESend inactivity_string;
                        EStore (p_id p) (Message inactivity_string)];
      cleared := p_id p :: cleared st; ran := ran st |}).
Proof. unfold on_timer. run_monad. Qed.

Lemma wait_before (dl : option Z) (t : Z) (m : message) rest (st : state) :
  before_deadline dl t = true ->
  wait p func data dl ((t, m) :: rest) st =
  bind (on_message p func data m)
       (fun r => match r with
                 | Some s => ret s
                 | None => wait p func data dl rest
                 end) (advance st t rest).
Proof.
  intros H. destruct dl as [dl|]; cbn in H |- *; [|reflexivity].
  apply Z.ltb_lt in H. destruct (Z.leb_spec dl t); [lia|reflexivity].
Qed.

Lemma wait_exit (dl : option Z) (t : Z) (m : message) rest (st : state) :
  content m = "exit"%string -> before_deadline dl t = true ->
  wait p func data dl ((t, m) :: rest) st =
  (Ok (Resolved (PhaseReturn (Some (Message exit_string)) data)),
   {| now := t; inbox := rest;
      log := log st ++ [EStore (p_id p) m; EClearChildren (p_id p);
                        ESend exit_string; EStore (p_id p) (Message exit_string);
                        EStop; EClearTimeout];
      cleared := p_id p :: cleared st; ran := ran st |}).
Proof.
  intros Hm Hdl. rewrite wait_before by exact Hdl.
  unfold bind at 1. rewrite on_message_exit by exact Hm. reflexivity.
Qed.

Lemma wait_reject (dl : option Z) (t : Z) (m : message) rest (st : state)
  (msg : string) :
  content m <> "exit"%string -> func m data = ThrowsRejection msg ->
  before_deadline dl t = true ->
  let feedback := if String.eqb msg "" then rejected_string else msg in
  wait p func data dl ((t, m) :: rest) st =
  wait p func data dl rest
    {| now := t; inbox := rest;
       log := log st ++ [ECallFunc (p_id p); EStore (p_id p) m;
                         ESend feedback; EStore (p_id p) (Message feedback)];
       cleared := cleared st; ran := ran st |}.
Proof.
  intros Hm Hf Hdl feedback. rewrite wait_before by exact Hdl.
  unfold bind at 1. rewrite (on_message_reject m msg) by assumption.
  reflexivity.
Qed.

Lemma wait_error (dl : option Z) (t : Z) (m : message) rest (st : state)
  (e : string) :
  content m <> "exit"%string -> func m data = ThrowsError e ->
  before_deadline dl t = true ->
  wait p func data dl ((t, m) :: rest) st =
  (Ok (Rejected (Thrown e)),
   {| now := t; inbox := rest;
      log := log st ++ [ECallFunc (p_id p); EStore (p_id p) m; EStop;
                        EClearTimeout];
      cleared := cleared st; ran := ran st |}).
Proof.
  intros Hm Hf Hdl. rewrite wait_before by exact Hdl.
  unfold bind at 1. rewrite (on_message_error m e) by assumption.
  reflexivity.
Qed.

(** The timer due before the next message (or with no message left). *)
Lemma wait_timer_first (dl : option Z) (msgs : list (Z * message)) (st : state) :
  match msgs with [] => True | (t, _) :: _ => before_deadline dl t = false end ->
  match dl with
  | Some t =>
      wait p func data dl msgs st =
      (Ok (Resolved (PhaseReturn (Some (Message inactivity_string)) data)),
       {| now := t; inbox := inbox st;
          log := log st ++ [ETimerFired; EStop; EClearChildren (p_id p);
                            ESend inactivity_string;
                            EStore (p_id p) (Message inactivity_string)];
          cleared := p_id p :: cleared st; ran := ran st |})
  | None => msgs = [] /\ wait p func data dl msgs st = (Pending, st)
  end.
Proof.
  intros H. destruct dl as [dl|], msgs as [|[t m] rest]; cbn in H |- *;
    try discriminate; auto.
  - run_monad.
  - apply Z.ltb_ge in H. destruct (Z.leb_spec dl t); [|lia]. run_monad.
Qed.

(** The effects one message adds: never a timer being armed or firing;
    when the phase goes on, no [stop] and no [clearTimeout]; when it
    settles, [stop] then [clearTimeout] last. *)
Lemma on_message_log (m : message) (st st' : state) r :
  on_message p func data m st = (r, st') ->
  exists l,
    log st' = log st ++ l /\
    (forall d, ~ In (ESetTimeout d) l) /\ ~ In ETimerFired l /\
    ((r = Ok None /\ ~ In EStop l /\ ~ In EClearTimeout l) \/
     (exists s l0, r = Ok (Some s) /\ l = l0 ++ [EStop; EClearTimeout] /\
                   ~ In EClearTimeout l0)).
Proof.
  intros H.
  destruct (String.eqb_spec (content m) "exit") as [Hx|Hx].
  - rewrite on_message_exit in H by exact Hx. injection H as <- <-.
    eexists. split; [reflexivity|].
    split; [intros d Hin; cbn in Hin; intuition discriminate|].
    split; [cbn; intuition discriminate|].
    right. eexists. exists [EStore (p_id p) m; EClearChildren (p_id p);
      ESend exit_string; EStore (p_id p) (Message exit_string)].
    split; [reflexivity|]. split; [reflexivity|]. cbn; intuition discriminate.
  - destruct (func m data) as [d'|msg|e] eqn:Hf.
    + rewrite (on_message_accept m d') in H by assumption.
      injection H as <- <-. eexists. split; [reflexivity|].
      split; [intros d Hin; cbn in Hin; intuition discriminate|].
      split; [cbn; intuition discriminate|].
      right. eexists. exists [ECallFunc (p_id p); EStore (p_id p) m].
      split; [reflexivity|]. split; [reflexivity|]. cbn; intuition discriminate.
    + rewrite (on_message_reject m msg) in H by assumption.
      injection H as <- <-. eexists. split; [reflexivity|].
      split; [intros d Hin; cbn in Hin; intuition discriminate|].
      split; [cbn; intuition discriminate|].
      left. split; [reflexivity|]. cbn; intuition discriminate.
    + rewrite (on_message_error m e) in H by assumption.
      injection H as <- <-. eexists. split; [reflexivity|].
      split; [intros d Hin; cbn in Hin; intuition discriminate|].
      split; [cbn; intuition discriminate|].
      right. eexists. exists [ECallFunc (p_id p); EStore (p_id p) m].
      split; [reflexivity|]. split; [reflexivity|]. cbn; intuition discriminate.
Qed.

(** Waiting never arms a timer; with no timer, none fires. *)
Lemma wait_log (dl : option Z) msgs (st st' : state) r :
  wait p func data dl msgs st = (r, st') ->
  exists l, log st' = log st ++ l /\
    (forall d, ~ In (ESetTimeout d) l) /\ (dl = None -> ~ In ETimerFired l).
Proof.
  revert st. induction msgs as [|[t m] rest IH]; intros st H.
  - pose proof (wait_timer_first dl [] st I) as Ht.
    destruct dl as [dl|].
    + rewrite Ht in H. injection H as _ <-. eexists. split; [reflexivity|].
      split; [intros d Hin; cbn in Hin; intuition discriminate|discriminate].
    + destruct Ht as [_ Ht]. rewrite Ht in H. injection H as _ <-.
      exists []. rewrite app_nil_r. split; [reflexivity|]. split; auto.
  - destruct (before_deadline dl t) eqn:Hdl.
    + rewrite wait_before in H by exact Hdl. unfold bind in H.
      destruct (on_message p func data m (advance st t rest)) as [r1 st1] eqn:Hm.
      destruct (on_message_log m _ _ _ Hm) as (l1 & Hl1 & Ha1 & Hf1 & Hcase).
      cbn in Hl1.
      destruct Hcase as [(-> & _ & _) | (s & l0 & -> & _ & _)].
      * destruct (IH st1 H) as (l2 & Hl2 & Ha2 & Hf2).
        exists (l1 ++ l2). rewrite Hl2, Hl1, app_assoc. split; [reflexivity|].
        split.
        -- intros d Hin. apply in_app_or in Hin as [Hin|Hin]; [eapply Ha1|eapply Ha2]; eauto.
        -- intros Hn Hin. apply in_app_or in Hin as [Hin|Hin];
             [apply Hf1 | apply (Hf2 Hn)]; exact Hin.
      * cbn in H. injection H as _ <-. exists l1. auto.
    + pose proof (wait_timer_first dl ((t, m) :: rest) st Hdl) as Ht.
      destruct dl as [dl|]; [|discriminate].
      rewrite Ht in H. injection H as _ <-. eexists. split; [reflexivity|].
      split; [intros d Hin; cbn in Hin; intuition discriminate|discriminate].
Qed.

(** With no timer and only rejected messages, the phase never settles. *)
Lemma wait_rejections_pending msgs (st : state) :
  Forall (fun tm => content (snd tm) <> "exit"%string /\
                    exists msg, func (snd tm) data = ThrowsRejection msg) msgs ->
  fst (wait p func data None msgs st) = Pending.
Proof.
  revert st. induction msgs as [|[t m] rest IH]; intros st H; [reflexivity|].
  inversion H as [|? ? [Hx [msg Hf]] Hrest]; subst.
  rewrite (wait_reject None t m rest st msg Hx Hf eq_refl). apply IH, Hrest.
Qed.

Lemma collect_eq (st : state) :
  p_function p = Some func ->
  collect p data st =
  bind (wait p func data (deadline_of st p) (inbox st))
       (fun s => match s with Resolved r => ret r | Rejected e => throw e end)
       (with_log st (log st ++ ECreateCollector (p_id p) :: timer_effects p)).
Proof.
  intros Hf. unfold collect. rewrite Hf. rewrite bind_emit.
  unfold arm_timer, deadline_of, timer_effects.
  destruct (duration p =? 0)%Z; run_monad.
Qed.

End Handlers.

(** ** Branch selection *)

Lemma getNext_spec {D : Type} (p : phase D) (data : D) (st : state) :
  let cs := children_in (cleared st) p in
  exists r evaluated,
    getNext p data st =
      (Ok r, with_log st (log st ++ map (fun c => EEvalCond (p_id c)) evaluated)) /\
    ((exists pre c post,
         cs = pre ++ c :: post /\ r = Some c /\
         Forall (fun x => eligible data x = false) pre /\
         eligible data c = true /\
         evaluated = pre ++ (if has_condition c then [c] else [])) \/
     (r = None /\ Forall (fun x => eligible data x = false) cs /\
      evaluated = cs)).
Proof.
  cbn zeta. unfold getNext, current_children, get_cleared, bind at 1; cbn.
  generalize (children_in (cleared st) p) as cs; intros cs.
  revert st. induction cs as [|x l IH]; intros st.
  - exists None, []. split.
    + cbn. rewrite app_nil_r. now rewrite with_log_id.
    + right. auto.
  - destruct (p_condition x) as [cond|] eqn:Hx.
    + rewrite bind_emit.
      destruct (cond data) eqn:Hc.
      * exists (Some x), [x]. split; [reflexivity|].
        left. exists [], x, l.
        unfold eligible, has_condition; rewrite Hx; auto.
      * destruct (IH (with_log st (log st ++ [EEvalCond (p_id x)])))
          as (r & ev & Hrun & Hcase).
        exists r, (x :: ev). split.
        -- rewrite Hrun. cbn. now rewrite <- app_assoc.
        -- assert (Hex : eligible data x = false)
             by (unfold eligible; now rewrite Hx).
           destruct Hcase as [(pre & c & post & Hl & Hr & Hpre & Hc' & Hev)
                             | (Hr & Hall & Hev)].
           ++ left. exists (x :: pre), c, post. subst; auto 6.
           ++ right. subst; auto.
    + exists (Some x), []. split.
      * cbn. rewrite app_nil_r. now rewrite with_log_id.
      * left. exists [], x, l.
        unfold eligible, has_condition; rewrite Hx; auto.
Qed.

Lemma getNext_cleared {D : Type} (p : phase D) (data : D) (st : state) :
  In (p_id p) (cleared st) -> getNext p data st = (Ok None, st).
Proof.
  intros H. unfold getNext, current_children, get_cleared, bind; cbn.
  unfold children_in.
  replace (existsb (Nat.eqb (p_id p)) (cleared st)) with true; [reflexivity|].
  symmetry. apply existsb_exists. exists (p_id p). split; [exact H|].
  apply Nat.eqb_refl.
Qed.

(** ** Validation *)

Section Validation.
Context {D : Type}.
Local Abbreviation phase := (phase D).

Lemma valid_eq (p : phase) :
  valid p =
  forallb (fun c => (negb (Nat.ltb 1 (List.length (children p)))
                     || has_condition c) && valid c) (children p).
Proof.
  destruct p as [i g f c d cs]; cbn [valid children].
  set (b := Nat.ltb 1 (List.length cs)); clearbody b.
  induction cs as [|x l IH]; cbn; [reflexivity|].
  destruct b, (has_condition x), (valid x); cbn; auto.
Qed.

Lemma hasValidChildren_spec (p : phase) :
  hasValidChildren p = true <-> children_conditioned p.
Proof.
  unfold hasValidChildren, children_conditioned.
  generalize (children p) as cs; intros cs.
  assert (Hloop : (fix loop (l : list phase) : bool :=
       match l with
       | [] => true
       | child :: rest => if negb (has_condition child) then false else loop rest
       end) cs = forallb has_condition cs).
  { induction cs as [|x l IH]; [reflexivity|]. cbn. rewrite IH.
    now destruct (has_condition x). }
  rewrite Hloop. destruct (Nat.leb (List.length cs) 1) eqn:Hle.
  - apply Nat.leb_le in Hle. split; [intros _ Hlt; lia | reflexivity].
  - apply Nat.leb_gt in Hle. rewrite forallb_forall. split.
    + intros H _ c Hc. exact (H c Hc).
    + intros H. exact (H Hle).
Qed.

Lemma valid_reachable (p n : phase) :
  valid p = true -> reachable p n -> children_conditioned n.
Proof.
  intros Hv Hr. induction Hr as [p|p c n Hin Hr IH].
  - intros Hlt c Hc. rewrite valid_eq in Hv.
    apply (proj1 (forallb_forall _ _) Hv) in Hc.
    apply andb_prop in Hc as [Hc _].
    apply Nat.ltb_lt in Hlt. rewrite Hlt in Hc. exact Hc.
  - apply IH. rewrite valid_eq in Hv.
    apply (proj1 (forallb_forall _ _) Hv) in Hin.
    now apply andb_prop in Hin as [_ Hin].
Qed.

Lemma reachable_valid (p : phase) :
  (forall n, reachable p n -> children_conditioned n) -> valid p = true.
Proof.
  induction p as [i g f c d cs IH] using phase_ind'.
  intros H. rewrite valid_eq. apply forallb_forall. intros x Hx.
  apply andb_true_intro. split.
  - destruct (Nat.ltb 1 (List.length (children (Phase i g f c d cs)))) eqn:Hlt;
      [|reflexivity].
    apply Nat.ltb_lt in Hlt. cbn. apply (H _ (reach_here _) Hlt x Hx).
  - apply IH; [exact Hx|]. intros n Hn. apply H.
    eapply reach_child; [exact Hx | exact Hn].
Qed.

End Validation.

(** ** Claims *)

(** C1: [valid root] holds exactly when every node reachable from [root]
    that has more than one child has a condition on each of its children;
    nodes with zero or one child impose nothing, at any depth. *)
Theorem valid_iff_reachable_conditioned {D : Type} (root : phase D) :
  (valid root = true <->
   (forall n, reachable root n ->
      1 < List.length (children n) ->
      forall c, In c (children n) -> p_condition c <> None)) /\
  (valid root = true <->
   (forall n, reachable root n -> hasValidChildren n = true)).
Proof.
  split; split.
  - intros Hv n Hr Hlt c Hc.
    pose proof (valid_reachable root n Hv Hr Hlt c Hc) as H.
    unfold has_condition in H. destruct (p_condition c); congruence.
  - intros H. apply reachable_valid. intros n Hr Hlt c Hc.
    unfold has_condition. specialize (H n Hr Hlt c Hc).
    destruct (p_condition c); congruence.
  - intros Hv n Hr. apply hasValidChildren_spec.
    exact (valid_reachable root n Hv Hr).
  - intros H. apply reachable_valid. intros n Hr.
    apply hasValidChildren_spec. exact (H n Hr).
Qed.

(** C2: [getNext] evaluates the children's conditions in declared order
    and stops at the first eligible child (no condition, or a condition
    that holds), which it returns; the conditions evaluated are exactly
    those of the children before it, plus its own if it has one, so no
    later condition runs.  With no eligible child, in particular with no
    children, it returns [null] after evaluating every condition. *)
Theorem getNext_first_eligible {D : Type} (p : phase D) (data : D) (st : state) :
  let cs := children_in (cleared st) p in
  exists r evaluated,
    getNext p data st =
      (Ok r, with_log st (log st ++ map (fun c => EEvalCond (p_id c)) evaluated)) /\
    ((exists pre c post,
         cs = pre ++ c :: post /\ r = Some c /\
         Forall (fun x => eligible data x = false) pre /\
         eligible data c = true /\
         evaluated = pre ++ (if has_condition c then [c] else [])) \/
     (r = None /\ Forall (fun x => eligible data x = false) cs /\
      evaluated = cs)).
Proof. exact (getNext_spec p data st). Qed.

(** C5: a message whose content is exactly the exit token ends the phase
    as EXITED (the children are cleared, the exit string is sent and the
    phase resolves), and the collection function is not called for it:
    no [ECallFunc] is among the effects. *)
Theorem exit_token_skips_function {D : Type} (p : phase D) func (data : D)
  (dl : option Z) (t : Z) (m : message) rest (st : state) :
  content m = "exit"%string -> before_deadline dl t = true ->
  wait p func data dl ((t, m) :: rest) st =
  (Ok (Resolved (PhaseReturn (Some (Message exit_string)) data)),
   {| now := t; inbox := rest;
      log := log st ++ [EStore (p_id p) m; EClearChildren (p_id p);
                        ESend exit_string; EStore (p_id p) (Message exit_string);
                        EStop; EClearTimeout];
      cleared := p_id p :: cleared st; ran := ran st |}).
Proof.
  exact (wait_exit p func data dl t m rest st).
Qed.

(** C6: a message whose collection function throws a [Rejection] keeps
    the phase collecting: the feedback (the rejection's message, or the
    default string when it has none) is sent and stored, no [stop] is
    emitted and the timer is left alone, and the phase goes on waiting for
    the next message with the same deadline; nothing settles, so the
    rejection does not leave the step. *)
Theorem rejection_keeps_collecting {D : Type} (p : phase D) func (data : D)
  (dl : option Z) (t : Z) (m : message) rest (st : state) (msg : string) :
  content m <> "exit"%string -> func m data = ThrowsRejection msg ->
  before_deadline dl t = true ->
  let feedback := if String.eqb msg "" then rejected_string else msg in
  wait p func data dl ((t, m) :: rest) st =
  wait p func data dl rest
    {| now := t; inbox := rest;
       log := log st ++ [ECallFunc (p_id p); EStore (p_id p) m;
                         ESend feedback; EStore (p_id p) (Message feedback)];
       cleared := cleared st; ran := ran st |}.
Proof.
  exact (wait_reject p func data dl t m rest st msg).
Qed.

(** C7: a message whose collection function throws an error other than a
    [Rejection] ends the phase as FAILED: the promise of [collect] rejects
    with that very error, [stop] is emitted and the timer cleared, and no
    message (in particular no termination message) is sent; a [collect]
    that rejects makes the traversal loop reject with the same error. *)
Theorem error_fails_phase_and_run {D : Type} (p : phase D) func (data : D)
  (dl : option Z) (t : Z) (m : message) rest (st : state) (e : string) :
  content m <> "exit"%string -> func m data = ThrowsError e ->
  before_deadline dl t = true ->
  wait p func data dl ((t, m) :: rest) st =
  (Ok (Rejected (Thrown e)),
   {| now := t; inbox := rest;
      log := log st ++ [ECallFunc (p_id p); EStore (p_id p) m; EStop;
                        EClearTimeout];
      cleared := cleared st; ran := ran st |}) /\
  (p_function p = Some func ->
   forall st0 st1,
     wait p func data (deadline_of st0 p) (inbox st0)
       (with_log st0 (log st0 ++ ECreateCollector (p_id p) :: timer_effects p))
     = (Ok (Rejected (Thrown e)), st1) ->
     collect p data st0 = (Err (Thrown e), st1) /\
     forall fuel, execute_loop (S fuel) (Some p) data st0 = (Err (Thrown e), st1)).
Proof.
  intros Hm Hf Hdl. split.
  - exact (wait_error p func data dl t m rest st e Hm Hf Hdl).
  - intros Hfun st0 st1 Hw.
    assert (Hc : collect p data st0 = (Err (Thrown e), st1)).
    { rewrite (collect_eq p func data st0 Hfun). unfold bind at 1.
      rewrite Hw. reflexivity. }
    split; [exact Hc|]. intros fuel. cbn [execute_loop shouldRunCollector].
    unfold bind at 1. rewrite Hc. reflexivity.
Qed.

(** C3, as stated: every collection phase arms its timer exactly once.
    A phase whose duration is 0 arms none: [handleCollector] only calls
    [setTimeout] when [duration] is truthy. *)
Lemma zero_duration_arms_no_timer :
  timers_armed
    (log (snd (collect no_timeout_step 0 (init_state [(5%Z, msg "a")])))) = 0.
Proof. vm_compute. reflexivity. Qed.

(** C3, amended: for a phase with a collection function and a nonzero
    duration, the timer is armed once, when the phase starts, with the
    configured duration, and its deadline is fixed from that start; waiting
    never arms it again; a rejected message neither clears nor re-arms it
    (the wait goes on with the same deadline); a message that settles the
    phase (accept, exit, error) ends with [stop] and [clearTimeout]; and a
    message arriving at or after the deadline loses to the timer.  With a
    duration of 0, the whole collection arms no timer and none fires. *)
Theorem timer_armed_once_when_duration_nonzero {D : Type} (p : phase D) func
  (data : D) (st : state) :
  p_function p = Some func ->
  (duration p <> 0%Z ->
   collect p data st =
     bind (wait p func data (Some (now st + node_delay (duration p))%Z) (inbox st))
          (fun s => match s with Resolved r => ret r | Rejected e => throw e end)
          (with_log st (log st ++ [ECreateCollector (p_id p);
                                   ESetTimeout (duration p)]))) /\
  (duration p = 0%Z -> forall r st', collect p data st = (r, st') ->
     exists l, log st' = log st ++ l /\
       (forall d, ~ In (ESetTimeout d) l) /\ ~ In ETimerFired l) /\
  (forall dl msgs st1 r st2, wait p func data dl msgs st1 = (r, st2) ->
     exists l, log st2 = log st1 ++ l /\ forall d, ~ In (ESetTimeout d) l) /\
  (forall dl t m rest st1 msg,
     content m <> "exit"%string -> func m data = ThrowsRejection msg ->
     before_deadline dl t = true ->
     exists st2, wait p func data dl ((t, m) :: rest) st1 =
                 wait p func data dl rest st2) /\
  (forall m st1 r st2, on_message p func data m st1 = (r, st2) ->
     exists l, log st2 = log st1 ++ l /\
       ((r = Ok None /\ ~ In EClearTimeout l /\ forall d, ~ In (ESetTimeout d) l) \/
        (exists s l0, r = Ok (Some s) /\ l = l0 ++ [EStop; EClearTimeout]))) /\
  (forall dl t m rest st1, (dl <=? t)%Z = true ->
     fst (wait p func data (Some dl) ((t, m) :: rest) st1) =
     Ok (Resolved (PhaseReturn (Some (Message inactivity_string)) data))).
Proof.
  intros Hf. split; [|split; [|split; [|split; [|split]]]].
  - intros Hd.
    rewrite (collect_eq p func data st Hf). unfold deadline_of, timer_effects.
    apply Z.eqb_neq in Hd. rewrite Hd. reflexivity.
  - intros Hd r st' H.
    rewrite (collect_eq p func data st Hf) in H. unfold deadline_of, timer_effects in H.
    replace (duration p =? 0)%Z with true in H by (rewrite Hd; reflexivity).
    cbv beta iota in H. unfold bind in H.
    match type of H with
    | context [wait p func data None ?msgs ?s] =>
        destruct (wait p func data None msgs s) as [r2 st2] eqn:Hw
    end.
    destruct (wait_log p func data None _ _ _ _ Hw) as (l & Hl & Ha & Hn).
    assert (Hst : st' = st2)
      by (destruct r2 as [[pr|e]| | |]; cbn in H; injection H as _ <-; reflexivity).
    subst st'. exists (ECreateCollector (p_id p) :: l).
    rewrite Hl. cbn. rewrite <- app_assoc. split; [reflexivity|]. split.
    + intros d [Hc|Hc]; [discriminate|exact (Ha d Hc)].
    + intros [Hc|Hc]; [discriminate|exact (Hn eq_refl Hc)].
  - intros dl msgs st1 r st2 H.
    destruct (wait_log p func data dl msgs st1 st2 r H) as (l & Hl & Ha & _).
    eauto.
  - intros dl t m rest st1 msg Hm Hr Hdl.
    eexists. exact (wait_reject p func data dl t m rest st1 msg Hm Hr Hdl).
  - intros m st1 r st2 H.
    destruct (on_message_log p func data m st1 st2 r H)
      as (l & Hl & Ha & _ & [(Hr & _ & Hc) | (s & l0 & Hr & Hl0 & _)]).
    + exists l. auto.
    + exists l. split; [exact Hl|]. right. eauto.
  - intros dl t m rest st1 Hdl.
    assert (Hb : before_deadline (Some dl) t = false).
    { cbn. apply Z.leb_le in Hdl. apply Z.ltb_ge. exact Hdl. }
    pose proof (wait_timer_first p func data (Some dl) ((t, m) :: rest) st1 Hb)
      as Ht.
    cbn beta iota in Ht. rewrite Ht. reflexivity.
Qed.

(** C10: with a zero duration no timer is armed: the phase starts with no
    [setTimeout], no timer ever fires while it waits (it cannot end as
    INACTIVE), and as long as messages are rejected it stays pending. *)
Theorem zero_duration_never_inactive {D : Type} (p : phase D) func (data : D)
  (st : state) :
  p_function p = Some func -> duration p = 0%Z ->
  collect p data st =
    bind (wait p func data None (inbox st))
         (fun s => match s with Resolved r => ret r | Rejected e => throw e end)
         (with_log st (log st ++ [ECreateCollector (p_id p)])) /\
  (forall msgs st1 r st2, wait p func data None msgs st1 = (r, st2) ->
     exists l, log st2 = log st1 ++ l /\ ~ In ETimerFired l /\
               forall d, ~ In (ESetTimeout d) l) /\
  (forall msgs st1,
     Forall (fun tm => content (snd tm) <> "exit"%string /\
                       exists msg, func (snd tm) data = ThrowsRejection msg) msgs ->
     fst (wait p func data None msgs st1) = Pending).
Proof.
  intros Hf Hd. split; [|split].
  - rewrite (collect_eq p func data st Hf). unfold deadline_of, timer_effects.
    rewrite Hd. reflexivity.
  - intros msgs st1 r st2 H.
    destruct (wait_log p func data None msgs st1 st2 r H) as (l & Hl & Ha & Hn).
    exists l. auto.
  - intros msgs st1 H. exact (wait_rejections_pending p func data msgs st1 H).
Qed.

(** C4, as stated: an EXITED or INACTIVE phase makes [run] fail with a
    fatal signal.  On a one-step tree, [run] resolves normally both when
    the reply is the exit token and when the timer fires. *)
Lemma exit_and_inactivity_resolve_run :
  fst (run 0 (leaf 1 None) (init_state [(100%Z, msg "exit")])) = Ok tt /\
  fst (run 0 (leaf 1 None) (init_state [])) = Ok tt.
Proof. split; vm_compute; reflexivity. Qed.

(** C4, amended: EXITED and INACTIVE both resolve the phase normally with
    the unchanged data, after clearing the node's children and sending and
    storing the exit or inactivity string (the exit message itself is
    stored first); no error is raised.  Once its children are cleared,
    [getNext] finds no next node there, so the traversal loop stops at that
    node and completes without an error. *)
Theorem exit_and_inactivity_end_run_normally {D : Type} (p : phase D) func
  (data : D) :
  p_function p = Some func ->
  (forall dl t m rest st,
     content m = "exit"%string -> before_deadline dl t = true ->
     wait p func data dl ((t, m) :: rest) st =
       (Ok (Resolved (PhaseReturn (Some (Message exit_string)) data)),
        {| now := t; inbox := rest;
           log := log st ++ [EStore (p_id p) m; EClearChildren (p_id p);
                             ESend exit_string;
                             EStore (p_id p) (Message exit_string);
                             EStop; EClearTimeout];
           cleared := p_id p :: cleared st; ran := ran st |})) /\
  (forall dl msgs st,
     match msgs with [] => True | (t, _) :: _ => before_deadline (Some dl) t = false end ->
     wait p func data (Some dl) msgs st =
       (Ok (Resolved (PhaseReturn (Some (Message inactivity_string)) data)),
        {| now := dl; inbox := inbox st;
           log := log st ++ [ETimerFired; EStop; EClearChildren (p_id p);
                             ESend inactivity_string;
                             EStore (p_id p) (Message inactivity_string)];
           cleared := p_id p :: cleared st; ran := ran st |})) /\
  (forall d st, In (p_id p) (cleared st) -> getNext p d st = (Ok None, st)) /\
  (forall fuel st r st',
     collect p data st = (Ok r, st') -> In (p_id p) (cleared st') ->
     execute_loop (S fuel) (Some p) data st = (Ok tt, st')).
Proof.
  intros Hf. split; [|split; [|split]].
  - intros dl t m rest st Hm Hdl. exact (wait_exit p func data dl t m rest st Hm Hdl).
  - intros dl msgs st Hdl.
    exact (wait_timer_first p func data (Some dl) msgs st Hdl).
  - intros d st Hcl. exact (getNext_cleared p d st Hcl).
  - intros fuel st r st' Hc Hcl. cbn [execute_loop shouldRunCollector].
    unfold bind at 1. rewrite Hc.
    unfold bind at 1. rewrite (getNext_cleared p (pr_data r) st' Hcl).
    destruct fuel; reflexivity.
Qed.

(** C8: a step with no collection function creates no collector and
    changes nothing when it "collects": it yields the data unchanged; the
    loop iteration for its node then only evaluates its children's
    conditions and, if a child is selected, sends that child's prompt once
    and records it once before going on with the same data.  The root is
    likewise recorded once and its prompt sent once. *)
Theorem step_without_function_passes_through {D : Type} (p : phase D)
  (data : D) (st : state) :
  p_function p = None ->
  collect p data st = (Ok (PhaseReturn None data), st) /\
  (forall fuel, exists r evaluated st1,
     getNext p data st = (Ok r, st1) /\
     st1 = with_log st (log st ++ map (fun c : phase D => EEvalCond (p_id c)) evaluated) /\
     execute_loop (S fuel) (Some p) data st =
       match r with
       | Some c => (sendMessage c data;;; push_ran (p_id c);;;
                    execute_loop fuel (Some c) data) st1
       | None => (Ok tt, st1)
       end) /\
  execute data p st =
    execute_loop (height p) (Some p) data
      {| now := now st; inbox := inbox st;
         log := log st ++ [ESend (formatGenerator p data);
                           EStore (p_id p) (Message (formatGenerator p data))];
         cleared := cleared st; ran := ran st ++ [p_id p] |}.
Proof.
  intros Hf.
  assert (Hc : collect p data st = (Ok (PhaseReturn None data), st)).
  { unfold collect. rewrite Hf. reflexivity. }
  split; [exact Hc|split].
  - intros fuel.
    destruct (getNext_spec p data st) as (r & ev & Hg & _).
    exists r, ev, (with_log st (log st ++ map (fun c : phase D => EEvalCond (p_id c)) ev)).
    split; [exact Hg|]. split; [reflexivity|].
    cbn [execute_loop shouldRunCollector]. unfold bind at 1. rewrite Hc.
    cbn [pr_data]. unfold bind at 1. rewrite Hg.
    destruct r; [reflexivity | destruct fuel; reflexivity].
  - unfold execute. run_monad.
Qed.

(** On a tree none of whose children were cleared, the validation [run]
    performs is [valid]. *)
Lemma valid_in_nil {D : Type} (p : phase D) : valid_in [] p = valid p.
Proof.
  induction p as [i g f c d cs IH] using phase_ind'. cbn [valid_in valid existsb].
  set (b := Nat.ltb 1 (List.length cs)); clearbody b.
  induction cs as [|x l IHl]; [reflexivity|].
  cbn. rewrite (IH x (or_introl eq_refl)).
  rewrite IHl by (intros y Hy; apply IH; right; exact Hy). reflexivity.
Qed.

(** C9: [run] first validates the whole tree, as it stands when [run] is
    called: an invalid tree makes it reject with the invalid-prompt error
    and leaves the state untouched (nothing sent, nothing recorded, no
    traversal); a valid one is handed to [execute] in the same state. On a
    tree whose children were never cleared, the validation is [valid]. *)
Theorem run_validates_first {D : Type} (root : phase D) (data : D) (st : state) :
  (run data root st =
   if valid_in (cleared st) root then execute data root st
   else (Err InvalidPrompt, st)) /\
  valid_in [] root = valid root.
Proof.
  split.
  - unfold run, bind, get_cleared. destruct (valid_in (cleared st) root); reflexivity.
  - apply valid_in_nil.
Qed.

(** ** Witnesses: the theorems' hypotheses hold on concrete steps *)

Lemma exit_token_skips_function_witness :
  content (msg "exit") = "exit"%string /\
  before_deadline (Some 60000%Z) 5%Z = true /\
  wait (leaf 1 None) accept_all 0 (Some 60000%Z) [(5%Z, msg "exit")] (init_state []) =
  (Ok (Resolved (PhaseReturn (Some (Message exit_string)) 0)),
   {| now := 5; inbox := [];
      log := log (init_state []) ++
             [EStore (p_id (leaf 1 None)) (msg "exit");
              EClearChildren (p_id (leaf 1 None));
              ESend exit_string; EStore (p_id (leaf 1 None)) (Message exit_string);
              EStop; EClearTimeout];
      cleared := p_id (leaf 1 None) :: cleared (init_state []);
      ran := ran (init_state []) |}).
Proof.
  split; [reflexivity|split; [reflexivity|]].
  apply (exit_token_skips_function (leaf 1 None) accept_all 0 (Some 60000%Z) 5%Z
           (msg "exit") [] (init_state [])); reflexivity.
Defined.

Lemma rejection_keeps_collecting_witness :
  content (msg "abc") <> "exit"%string /\
  reject_all (msg "abc") 0 = ThrowsRejection "" /\
  before_deadline (Some 60000%Z) 5%Z = true /\
  wait rejecting_step reject_all 0 (Some 60000%Z) [(5%Z, msg "abc")] (init_state []) =
  wait rejecting_step reject_all 0 (Some 60000%Z) []
    {| now := 5; inbox := [];
       log := log (init_state []) ++
              [ECallFunc (p_id rejecting_step); EStore (p_id rejecting_step) (msg "abc");
               ESend rejected_string;
               EStore (p_id rejecting_step) (Message rejected_string)];
       cleared := cleared (init_state []); ran := ran (init_state []) |}.
Proof.
  split; [discriminate|split; [reflexivity|split; [reflexivity|]]].
  apply (rejection_keeps_collecting rejecting_step reject_all 0 (Some 60000%Z) 5%Z
           (msg "abc") [] (init_state []) ""); [discriminate|reflexivity|reflexivity].
Defined.

Lemma error_fails_phase_and_run_witness :
  content (msg "abc") <> "exit"%string /\
  error_all (msg "abc") 0 = ThrowsError "boom" /\
  before_deadline (Some 60000%Z) 5%Z = true /\
  wait failing_step error_all 0 (Some 60000%Z) [(5%Z, msg "abc")] (init_state []) =
  (Ok (Rejected (Thrown "boom")),
   {| now := 5; inbox := [];
      log := log (init_state []) ++
             [ECallFunc (p_id failing_step); EStore (p_id failing_step) (msg "abc");
              EStop; EClearTimeout];
      cleared := cleared (init_state []); ran := ran (init_state []) |}).
Proof.
  split; [discriminate|split; [reflexivity|split; [reflexivity|]]].
  apply (proj1 (error_fails_phase_and_run failing_step error_all 0 (Some 60000%Z)
                  5%Z (msg "abc") [] (init_state []) "boom"
                  ltac:(discriminate) eq_refl eq_refl)).
Defined.

Lemma timer_armed_once_when_duration_nonzero_witness :
  p_function (leaf 1 None) = Some accept_all /\
  duration (leaf 1 None) <> 0%Z /\
  collect (leaf 1 None) 0 (init_state []) =
    bind (wait (leaf 1 None) accept_all 0
            (Some (now (init_state []) + node_delay (duration (leaf 1 None)))%Z)
            (inbox (init_state [])))
         (fun s => match s with Resolved r => ret r | Rejected e => throw e end)
         (with_log (init_state [])
            (log (init_state []) ++ [ECreateCollector (p_id (leaf 1 None));
                                     ESetTimeout (duration (leaf 1 None))])) /\
  p_function no_timeout_step = Some accept_all /\
  duration no_timeout_step = 0%Z /\
  exists l,
    log (snd (collect no_timeout_step 0 (init_state [(5%Z, msg "a")]))) =
      log (init_state [(5%Z, msg "a")]) ++ l /\
    (forall d, ~ In (ESetTimeout d) l) /\ ~ In ETimerFired l.
Proof.
  split; [reflexivity|split; [discriminate|split]].
  - exact (proj1 (timer_armed_once_when_duration_nonzero (leaf 1 None) accept_all 0
                    (init_state []) eq_refl) ltac:(discriminate)).
  - split; [reflexivity|split; [reflexivity|]].
    exact (proj1 (proj2 (timer_armed_once_when_duration_nonzero no_timeout_step
                           accept_all 0 (init_state [(5%Z, msg "a")]) eq_refl))
             eq_refl _ _ (surjective_pairing _)).
Defined.

Lemma zero_duration_never_inactive_witness :
  p_function no_timeout_step = Some accept_all /\
  duration no_timeout_step = 0%Z /\
  collect no_timeout_step 0 (init_state []) =
    bind (wait no_timeout_step accept_all 0 None (inbox (init_state [])))
         (fun s => match s with Resolved r => ret r | Rejected e => throw e end)
         (with_log (init_state [])
            (log (init_state []) ++ [ECreateCollector (p_id no_timeout_step)])).
Proof.
  split; [reflexivity|split; [reflexivity|]].
  exact (proj1 (zero_duration_never_inactive no_timeout_step accept_all 0
                  (init_state []) eq_refl eq_refl)).
Defined.

Lemma exit_and_inactivity_end_run_normally_witness :
  p_function parent_step = Some accept_all /\
  wait parent_step accept_all 0 (Some 60000%Z) [(5%Z, msg "exit")] (init_state []) =
    (Ok (Resolved (PhaseReturn (Some (Message exit_string)) 0)),
     {| now := 5; inbox := [];
        log := [EStore 8 (msg "exit"); EClearChildren 8; ESend exit_string;
                EStore 8 (Message exit_string); EStop; EClearTimeout];
        cleared := [8]; ran := [] |}) /\
  execute_loop 2 (Some parent_step) 0 (init_state [(5%Z, msg "exit")]) =
    (Ok tt, snd (collect parent_step 0 (init_state [(5%Z, msg "exit")]))).
Proof.
  split; [reflexivity|].
  destruct (exit_and_inactivity_end_run_normally parent_step accept_all 0 eq_refl)
    as (Hexit & _ & _ & Hloop).
  split.
  - exact (Hexit (Some 60000%Z) 5%Z (msg "exit") [] (init_state [])
             eq_refl eq_refl).
  - apply (Hloop 1 (init_state [(5%Z, msg "exit")])
             (PhaseReturn (Some (Message exit_string)) 0)).
    + vm_compute. reflexivity.
    + vm_compute. left. reflexivity.
Defined.

Lemma step_without_function_passes_through_witness :
  p_function display_step = None /\
  collect display_step 0 (init_state []) =
    (Ok (PhaseReturn None 0), init_state []).
Proof.
  split; [reflexivity|].
  exact (proj1 (step_without_function_passes_through display_step 0
                  (init_state []) eq_refl)).
Defined.

(** ** Further properties of the code *)

(** *** What a phase leaves untouched *)

Lemma sendMessage_eq {D} (p : phase D) (d : D) (st : state) :
  sendMessage p d st =
  (Ok (Message (formatGenerator p d)),
   with_log st (log st ++ [ESend (formatGenerator p d);
                           EStore (p_id p) (Message (formatGenerator p d))])).
Proof. unfold sendMessage, send, storeMessage. run_monad. Qed.

Lemma terminateHere_eq {D} (p : phase D) (s : string) (st : state) :
  terminateHere p s st =
  (Ok (Message s),
   {| now := now st; inbox := inbox st;
      log := log st ++ [EClearChildren (p_id p); ESend s;
                        EStore (p_id p) (Message s)];
      cleared := p_id p :: cleared st; ran := ran st |}).
Proof. unfold terminateHere, send, storeMessage. run_monad. Qed.

Section Frames.
Context {D : Type}.
Variables (p : phase D) (func : message -> D -> func_outcome D) (data : D).

Lemma on_message_frame (m : message) (st st' : state) r :
  on_message p func data m st = (r, st') ->
  ran st' = ran st /\ exists o, r = Ok o.
Proof.
  intros H.
  destruct (String.eqb_spec (content m) "exit") as [Hx|Hx].
  - rewrite on_message_exit in H by exact Hx. injection H as <- <-. eauto.
  - destruct (func m data) as [d'|msg|e] eqn:Hf.
    + rewrite (on_message_accept p func data m d') in H by assumption.
      injection H as <- <-. eauto.
    + rewrite (on_message_reject p func data m msg) in H by assumption.
      injection H as <- <-. eauto.
    + rewrite (on_message_error p func data m e) in H by assumption.
      injection H as <- <-. eauto.
Qed.

Lemma wait_frame (dl : option Z) msgs (st st' : state) r :
  wait p func data dl msgs st = (r, st') ->
  ran st' = ran st /\ (r = Pending \/ exists s, r = Ok s).
Proof.
  revert st. induction msgs as [|[t m] rest IH]; intros st H.
  - pose proof (wait_timer_first p func data dl [] st I) as Ht.
    destruct dl as [dl|].
    + rewrite Ht in H. injection H as <- <-. eauto.
    + destruct Ht as [_ Ht]. rewrite Ht in H. injection H as <- <-. auto.
  - destruct (before_deadline dl t) eqn:Hdl.
    + rewrite wait_before in H by exact Hdl. unfold bind in H.
      destruct (on_message p func data m (advance st t rest)) as [r1 st1] eqn:Hm.
      destruct (on_message_frame m _ _ _ Hm) as [Hr1 [[s|] ->]].
      * injection H as <- <-. cbn in Hr1. eauto.
      * destruct (IH st1 H) as [Hr2 Hres]. cbn in Hr1. split; [congruence|exact Hres].
    + pose proof (wait_timer_first p func data dl ((t, m) :: rest) st Hdl) as Ht.
      destruct dl as [dl|]; [|discriminate].
      rewrite Ht in H. injection H as <- <-. eauto.
Qed.

End Frames.

Lemma collect_frame {D} (p : phase D) (data : D) (st st' : state) r :
  collect p data st = (r, st') ->
  ran st' = ran st /\ r <> OutOfFuel.
Proof.
  intros H. destruct (p_function p) as [func|] eqn:Hf.
  - rewrite (collect_eq p func data st Hf) in H. unfold bind in H.
    match type of H with
    | context [wait p func data ?dl ?msgs ?s] =>
        destruct (wait p func data dl msgs s) as [r2 st2] eqn:Hw
    end.
    destruct (wait_frame p func data _ _ _ _ _ Hw) as [Hr [-> | [s ->]]].
    + injection H as <- <-. split; [exact Hr|discriminate].
    + destruct s as [pr|e]; cbn in H; injection H as <- <-;
        (split; [exact Hr|discriminate]).
  - unfold collect in H. rewrite Hf in H. injection H as <- <-.
    split; [reflexivity|discriminate].
Qed.

(** *** The traversal *)

Section Traversal.
Context {D : Type}.
Local Abbreviation phase := (phase D).

Lemma children_in_sub cl (p c : phase) :
  In c (children_in cl p) -> In c (children p).
Proof. unfold children_in. destruct (existsb _ _); [intros []|auto]. Qed.

Lemma getNext_child (p : phase) (data : D) (st st' : state) r :
  getNext p data st = (r, st') ->
  ran st' = ran st /\
  exists o, r = Ok o /\ match o with Some c => In c (children p) | None => True end.
Proof.
  intros H. pose proof (getNext_spec p data st) as Hs. cbn zeta in Hs.
  destruct Hs as (r0 & ev & Hrun & Hcase).
  rewrite Hrun in H. injection H as <- <-. split; [reflexivity|].
  exists r0. split; [reflexivity|].
  destruct Hcase as [(pre & c & post & Hl & -> & _) | (-> & _)]; [|exact I].
  apply (children_in_sub (cleared st)). rewrite Hl.
  apply in_or_app. right. left. reflexivity.
Qed.

Lemma height_pos (p : phase) : (0 < height p)%nat.
Proof. destruct p; cbn; lia. Qed.

Lemma height_child (p c : phase) :
  In c (children p) -> (height c < height p)%nat.
Proof.
  destruct p as [i g f cd d cs]; cbn [children height].
  induction cs as [|x l IH]; cbn; [intros []|].
  intros [->|Hin]; [lia|]. specialize (IH Hin). lia.
Qed.

Lemma is_path_length (p : phase) path :
  is_path p path -> (List.length path < height p)%nat.
Proof.
  revert p. induction path as [|c rest IH]; intros p H; cbn.
  - apply height_pos.
  - destruct H as [Hc Hr]. specialize (IH c Hr).
    pose proof (height_child p c Hc). lia.
Qed.

Lemma execute_loop_path fuel (p : phase) (data : D) (st : state) :
  exists path,
    ran (snd (execute_loop fuel (Some p) data st)) = ran st ++ map p_id path /\
    is_path p path.
Proof.
  revert p data st. induction fuel as [|fuel IH]; intros p data st.
  - exists []. split; [cbn; now rewrite app_nil_r | exact I].
  - cbn [execute_loop shouldRunCollector]. unfold bind.
    destruct (collect p data st) as [r1 st1] eqn:Hc.
    destruct (collect_frame p data st st1 r1 Hc) as [Hr1 _].
    destruct r1 as [pr|e| |]; cbv beta iota delta [snd];
      try (exists []; split; [rewrite app_nil_r; exact Hr1 | exact I]).
    destruct (getNext p (pr_data pr) st1) as [r2 st2] eqn:Hg.
    destruct (getNext_child p _ st1 st2 r2 Hg) as (Hr2 & o & -> & Ho).
    destruct o as [c|].
    + rewrite sendMessage_eq. cbv beta iota delta [push_ran].
      match goal with
      | |- context [execute_loop fuel (Some c) ?d ?s] =>
          destruct (IH c d s) as (path & Hp & Hpath)
      end.
      exists (c :: path). split; [|split; assumption].
      cbv beta iota delta [snd] in Hp. rewrite Hp. cbn.
      rewrite Hr2, Hr1, <- app_assoc. reflexivity.
    + exists []. split; [|exact I].
      destruct fuel; cbn; rewrite app_nil_r; congruence.
Qed.

Lemma execute_loop_fuel fuel (p : phase) (data : D) (st : state) :
  (height p <= fuel)%nat -> fst (execute_loop fuel (Some p) data st) <> OutOfFuel.
Proof.
  revert p data st. induction fuel as [|fuel IH]; intros p data st Hh.
  - pose proof (height_pos p). lia.
  - cbn [execute_loop shouldRunCollector]. unfold bind.
    destruct (collect p data st) as [r1 st1] eqn:Hc.
    destruct (collect_frame p data st st1 r1 Hc) as [_ Hr1].
    destruct r1 as [pr|e| |]; cbv beta iota delta [fst]; try discriminate;
      [|congruence].
    destruct (getNext p (pr_data pr) st1) as [r2 st2] eqn:Hg.
    destruct (getNext_child p _ st1 st2 r2 Hg) as (_ & o & -> & Ho).
    destruct o as [c|].
    + rewrite sendMessage_eq. cbv beta iota delta [push_ran].
      apply IH. pose proof (height_child p c Ho). lia.
    + destruct fuel; cbn; discriminate.
Qed.

End Traversal.

(** *** Running a tree again *)

(** A tree that is invalid as built, run once without validation and left
    by the exit token: its root's children are gone, so [run] now finds it
    valid and executes it. *)
Lemma run_after_exit_sees_emptied_children :
  let st1 := snd (execute 0 fork_step (init_state [(5%Z, msg "exit")])) in
  valid fork_step = false /\ In (p_id fork_step) (cleared st1) /\
  valid_in (cleared st1) fork_step = true /\
  fst (run 0 fork_step st1) <> Err InvalidPrompt.
Proof.
  cbn zeta. split; [reflexivity|]. split; [vm_compute; left; reflexivity|].
  split; [vm_compute; reflexivity|]. vm_compute. discriminate.
Qed.

(** *** Positions in the trace *)

Lemma index_loop_spec (l : list nat) (x : nat) (k : Z) :
  (~ In x l /\ index_loop l x k = (-1)%Z) \/
  (exists j, index_loop l x k = (k + Z.of_nat j)%Z /\ nth_error l j = Some x /\
             forall i, (i < j)%nat -> nth_error l i <> Some x).
Proof.
  revert k. induction l as [|y rest IH]; intros k; cbn.
  - left. auto.
  - destruct (Nat.eqb_spec y x) as [->|Hne].
    + right. exists 0%nat. split; [lia|]. split; [reflexivity|]. intros i Hi; lia.
    + destruct (IH (k + 1)%Z) as [[Hn Hr]|(j & Hr & Hj & Hfirst)].
      * left. split; [intros [H|H]; [exact (Hne H)|exact (Hn H)]|exact Hr].
      * right. exists (S j). split; [rewrite Hr; lia|]. split; [exact Hj|].
        intros [|i] Hi; cbn; [congruence|apply Hfirst; lia].
Qed.

Lemma index_loop_app_in (l more : list nat) (x : nat) (k : Z) :
  In x l -> index_loop (l ++ more) x k = index_loop l x k.
Proof.
  revert k. induction l as [|y rest IH]; intros k Hin; [destruct Hin|].
  cbn. destruct (Nat.eqb_spec y x) as [->|Hne]; [reflexivity|].
  apply IH. destruct Hin as [H|H]; [contradiction|exact H].
Qed.

Lemma index_loop_app_notin (l more : list nat) (x : nat) (k : Z) :
  ~ In x l ->
  index_loop (l ++ more) x k = index_loop more x (k + Z.of_nat (List.length l)).
Proof.
  revert k. induction l as [|y rest IH]; intros k Hn; cbn.
  - now rewrite Z.add_0_r.
  - destruct (Nat.eqb_spec y x) as [->|Hne]; [destruct Hn; left; reflexivity|].
    rewrite IH by (intros H; apply Hn; right; exact H). f_equal. lia.
Qed.

Lemma execute_ran {D} (data : D) (root : phase D) (st : state) :
  exists path,
    ran (snd (execute data root st)) = ran st ++ map p_id (root :: path) /\
    is_path root path.
Proof.
  unfold execute, bind. cbv beta iota delta [push_ran]. rewrite sendMessage_eq.
  cbv beta iota.
  match goal with
  | |- context [execute_loop ?f (Some root) data ?s] =>
      destruct (execute_loop_path f root data s) as (path & Hp & Hpath)
  end.
  exists path. split; [|exact Hpath].
  rewrite Hp. cbn. rewrite <- app_assoc. reflexivity.
Qed.

(** *** Editing the tree *)

Lemma children_addChild {D} (p n : phase D) :
  children (addChild p n) = children p ++ [n].
Proof. destruct p; reflexivity. Qed.

Lemma p_id_addChild {D} (p n : phase D) : p_id (addChild p n) = p_id p.
Proof. destruct p; reflexivity. Qed.

Lemma select_loop_cons {D} (d : D) (x : phase D) l :
  select_loop d (x :: l) =
  match p_condition x with
  | None => ret (Some x)
  | Some cond =>
      emit (EEvalCond (p_id x));;;
      if cond d then ret (Some x) else select_loop d l
  end.
Proof. reflexivity. Qed.

Lemma getNext_select {D} (p : phase D) (d : D) (st : state) :
  getNext p d st = select_loop d (children_in (cleared st) p) st.
Proof. reflexivity. Qed.

Lemma select_loop_app_some {D} (d : D) l1 l2 (st st' : state) c :
  select_loop d l1 st = (Ok (Some c), st') ->
  select_loop d (l1 ++ l2) st = (Ok (Some c), st').
Proof.
  revert st. induction l1 as [|x l IH]; intros st H; [discriminate|].
  cbn [app]. rewrite select_loop_cons in H |- *.
  destruct (p_condition x) as [cond|]; [|exact H].
  rewrite bind_emit in H |- *. destruct (cond d); [exact H|]. apply IH, H.
Qed.

Lemma select_loop_app_none {D} (d : D) l1 l2 (st st' : state) :
  select_loop d l1 st = (Ok None, st') ->
  select_loop d (l1 ++ l2) st = select_loop d l2 st'.
Proof.
  revert st. induction l1 as [|x l IH]; intros st H.
  - cbn in H. injection H as <-. reflexivity.
  - cbn [app]. rewrite select_loop_cons in H |- *.
    destruct (p_condition x) as [cond|]; [|cbn in H; discriminate].
    rewrite bind_emit in H |- *. destruct (cond d); [cbn in H; discriminate|]. apply IH, H.
Qed.

(** *** One collection, at the level of [collect] *)

Lemma wait_accept {D} (p : phase D) func (data : D) (dl : option Z) (t : Z)
  (m : message) rest (st : state) (d' : D) :
  content m <> "exit"%string -> func m data = Returns d' ->
  before_deadline dl t = true ->
  wait p func data dl ((t, m) :: rest) st =
  (Ok (Resolved (PhaseReturn (Some m) d')),
   {| now := t; inbox := rest;
      log := log st ++ [ECallFunc (p_id p); EStore (p_id p) m; EStop;
                        EClearTimeout];
      cleared := cleared st; ran := ran st |}).
Proof.
  intros Hm Hf Hdl. rewrite wait_before by exact Hdl.
  unfold bind at 1. rewrite (on_message_accept p func data m d') by assumption.
  reflexivity.
Qed.

Lemma wait_rejected_prefix {D} (p : phase D) func (data : D) (dl : option Z)
  pre rest (st : state) :
  all_rejected func data dl pre ->
  exists st1,
    wait p func data dl (pre ++ rest) st = wait p func data dl rest st1 /\
    log st1 = log st ++ List.concat (map (fun tm => reject_effects p func data (snd tm)) pre) /\
    cleared st1 = cleared st /\ ran st1 = ran st.
Proof.
  revert st. induction pre as [|[t m] pre IH]; intros st Hall.
  - exists st. rewrite app_nil_r. auto.
  - inversion Hall as [|? ? (Hb & Hx & s & Hf) Hrest]; subst. cbn in Hb, Hx, Hf.
    pose proof (wait_reject p func data dl t m (pre ++ rest) st s Hx Hf Hb) as Hw.
    cbn zeta in Hw. cbn [app]. rewrite Hw.
    match goal with
    | |- context [wait p func data dl (pre ++ rest) ?s] =>
        destruct (IH s Hrest) as (st1 & Hw1 & Hl & Hc & Hr)
    end.
    exists st1. rewrite Hw1. split; [reflexivity|].
    rewrite Hl, Hc, Hr. cbn. split; [|split; reflexivity].
    unfold reject_effects, feedback_of. rewrite Hf, <- app_assoc. reflexivity.
Qed.

(** *** PromptRunner.indexOf and indexesOf *)

(** [indexOf] is -1 when the prompt was never run, and otherwise the
    position of its first run in the trace. *)
Theorem indexOf_first_occurrence {D} (ran_ids : list nat) (p : phase D) :
  (~ In (p_id p) ran_ids /\ indexOf ran_ids p = (-1)%Z) \/
  (exists j, indexOf ran_ids p = Z.of_nat j /\
             nth_error ran_ids j = Some (p_id p) /\
             forall i, (i < j)%nat -> nth_error ran_ids i <> Some (p_id p)).
Proof.
  unfold indexOf.
  destruct (index_loop_spec ran_ids (p_id p) 0) as [H|(j & H1 & H2 & H3)].
  - left. exact H.
  - right. exists j. split; [rewrite H1; lia|auto].
Qed.

(** Growing the trace leaves the indexes of prompts already in it as
    they were. *)
Theorem indexesOf_stable_under_growth {D} (ran_ids more : list nat)
  (prompts : list (phase D)) :
  Forall (fun p => In (p_id p) ran_ids) prompts ->
  indexesOf (ran_ids ++ more) prompts = indexesOf ran_ids prompts.
Proof.
  intros H. unfold indexesOf. apply map_ext_in. intros p Hp.
  rewrite Forall_forall in H. unfold indexOf. apply index_loop_app_in, H, Hp.
Qed.

(** An execution never moves a prompt that the runner had already run. *)
Theorem execute_keeps_earlier_indexes {D} (data : D) (root p : phase D)
  (st : state) :
  In (p_id p) (ran st) ->
  indexOf (ran (snd (execute data root st))) p = indexOf (ran st) p.
Proof.
  intros H. destruct (execute_ran data root st) as (path & Hr & _).
  rewrite Hr. unfold indexOf. apply index_loop_app_in, H.
Qed.

(** The root of an execution is found at the position the trace had
    reached when the execution started. *)
Theorem execute_root_index {D} (data : D) (root : phase D) (st : state) :
  ~ In (p_id root) (ran st) ->
  indexOf (ran (snd (execute data root st))) root =
  Z.of_nat (List.length (ran st)).
Proof.
  intros H. destruct (execute_ran data root st) as (path & Hr & _).
  rewrite Hr. unfold indexOf. rewrite index_loop_app_notin by exact H.
  cbn. rewrite Nat.eqb_refl. reflexivity.
Qed.

(** *** PromptRunner.execute *)

(** The prompts an execution runs form a downward path from the root,
    shorter than the tree's height. *)
Theorem execute_visits_downward_path {D} (data : D) (root : phase D)
  (st : state) :
  exists path,
    ran (snd (execute data root st)) = ran st ++ map p_id (root :: path) /\
    is_path root path /\ (List.length path < height root)%nat.
Proof.
  destruct (execute_ran data root st) as (path & Hr & Hp).
  exists path. split; [exact Hr|]. split; [exact Hp|].
  apply is_path_length, Hp.
Qed.

(** The loop of [execute] always stops: it settles, fails or waits for
    input, and never needs more iterations than the tree's height. *)
Theorem execute_never_exhausts_height {D} (data : D) (root : phase D)
  (st : state) :
  fst (execute data root st) <> OutOfFuel.
Proof.
  unfold execute, bind. cbv beta iota delta [push_ran]. rewrite sendMessage_eq.
  cbv beta iota. apply execute_loop_fuel. lia.
Qed.

(** *** PromptNode.addChild *)

(** After [addChild], [hasValidChildren] holds exactly when the node had
    no children, or when the old children and the new one all have a
    condition. *)
Theorem hasValidChildren_addChild {D} (p n : phase D) :
  hasValidChildren (addChild p n) = true <->
  children p = [] \/
  (has_condition n = true /\ Forall (fun c => has_condition c = true) (children p)).
Proof.
  rewrite hasValidChildren_spec. unfold children_conditioned.
  rewrite children_addChild, length_app. rewrite Forall_forall.
  destruct (children p) as [|x l] eqn:Hcs.
  - split; [intros _; left; reflexivity|]. intros _ Hlt. cbn in Hlt. lia.
  - assert (Hlt : (1 < List.length (x :: l) + List.length [n])%nat)
      by (cbn; lia).
    split.
    + intros H. right. specialize (H Hlt). split.
      * apply H, in_or_app. right. left. reflexivity.
      * intros c Hc. apply H, in_or_app. left. exact Hc.
    + intros [Hnil|[Hn Hall]] _ c Hc; [discriminate|].
      apply in_app_or in Hc as [Hc|[<-|[]]]; auto.
Qed.

(** After [addChild], [PromptRunner.valid] holds exactly when the new
    subtree and the old subtrees are valid and, unless the node had no
    children, every child (the new one included) has a condition. *)
Theorem valid_addChild {D} (p n : phase D) :
  valid (addChild p n) = true <->
  valid n = true /\ Forall (fun c => valid c = true) (children p) /\
  (children p <> [] ->
   has_condition n = true /\ Forall (fun c => has_condition c = true) (children p)).
Proof.
  rewrite valid_eq, children_addChild. rewrite !Forall_forall.
  destruct (children p) as [|x l] eqn:Hcs.
  - cbn. destruct (valid n); cbn.
    + split; [|reflexivity]. intros _. split; [reflexivity|].
      split; [intros c []|]. intros Hne; destruct Hne; reflexivity.
    + split; [discriminate|]. intros [H _]; exact H.
  - replace (Nat.ltb 1 (List.length ((x :: l) ++ [n]))) with true
      by (symmetry; apply Nat.ltb_lt; rewrite length_app; cbn; lia).
    cbn [negb orb]. rewrite forallb_forall. split.
    + intros H.
      assert (Hall : forall c, In c ((x :: l) ++ [n]) ->
                       has_condition c = true /\ valid c = true)
        by (intros c Hc; apply andb_prop, H, Hc).
      split; [apply Hall, in_or_app; right; left; reflexivity|]. split.
      * intros c Hc. apply Hall, in_or_app. left. exact Hc.
      * intros _. split; [apply Hall, in_or_app; right; left; reflexivity|].
        intros c Hc. apply Hall, in_or_app. left. exact Hc.
    + intros (Hn & Hv & Hh). destruct (Hh ltac:(discriminate)) as [Hhn Hhc].
      intros c Hc. apply andb_true_intro.
      apply in_app_or in Hc as [Hc|[<-|[]]]; auto.
Qed.

(** Appending a child never changes a branch [getNext] already picks;
    when it picked none (and the node's children were not cleared), the
    new child is picked if it may be entered, after its condition (if
    any) is evaluated. *)
Theorem getNext_addChild {D} (p n : phase D) (d : D) (st : state) :
  (forall c st', getNext p d st = (Ok (Some c), st') ->
                 getNext (addChild p n) d st = (Ok (Some c), st')) /\
  (forall st', getNext p d st = (Ok None, st') -> ~ In (p_id p) (cleared st) ->
     getNext (addChild p n) d st =
     (Ok (if eligible d n then Some n else None),
      if has_condition n then with_log st' (log st' ++ [EEvalCond (p_id n)])
      else st')).
Proof.
  rewrite !getNext_select. unfold children_in.
  rewrite p_id_addChild, children_addChild.
  destruct (existsb (Nat.eqb (p_id p)) (cleared st)) eqn:He.
  - split; [intros c st' H; discriminate H|].
    intros st' _ Hn. exfalso. apply Hn.
    apply existsb_exists in He as (i & Hi & Heq).
    apply Nat.eqb_eq in Heq. subst i. exact Hi.
  - split.
    + intros c st' H. apply select_loop_app_some, H.
    + intros st' H _. rewrite (select_loop_app_none d _ _ st st' H).
      unfold eligible, has_condition. rewrite select_loop_cons.
      destruct (p_condition n) as [cond|]; [|reflexivity].
      rewrite bind_emit. destruct (cond d); reflexivity.
Qed.

(** *** Phase.terminateHere *)

(** [terminateHere] sends and stores the given text, and from then on
    [getNext] finds no branch below the phase. *)
Theorem terminateHere_then_getNext {D} (p : phase D) (s : string) (d : D)
  (st : state) :
  let '(r, st') := terminateHere p s st in
  r = Ok (Message s) /\
  log st' = log st ++ [EClearChildren (p_id p); ESend s; EStore (p_id p) (Message s)] /\
  getNext p d st' = (Ok None, st').
Proof.
  rewrite terminateHere_eq. split; [reflexivity|]. split; [reflexivity|].
  apply getNext_cleared. left. reflexivity.
Qed.

(** *** Phase.collect *)

(** Rejected answers before an accepted one: [collect] resolves with the
    accepted message and the new data; each rejection left its feedback
    in the log, the timer was armed once and cleared at the end. *)
Theorem collect_accepts_after_rejections {D} (p : phase D) func (data : D)
  (st : state) pre (t : Z) (m : message) rest (d' : D) :
  p_function p = Some func ->
  inbox st = pre ++ (t, m) :: rest ->
  all_rejected func data (deadline_of st p) pre ->
  before_deadline (deadline_of st p) t = true ->
  content m <> "exit"%string ->
  func m data = Returns d' ->
  collect p data st =
  (Ok (PhaseReturn (Some m) d'),
   {| now := t; inbox := rest;
      log := log st ++ ECreateCollector (p_id p) :: timer_effects p ++
             List.concat (map (fun tm => reject_effects p func data (snd tm)) pre) ++
             [ECallFunc (p_id p); EStore (p_id p) m; EStop; EClearTimeout];
      cleared := cleared st; ran := ran st |}).
Proof.
  intros Hf Hin Hall Hb Hx Hacc.
  rewrite (collect_eq p func data st Hf), Hin. unfold bind.
  destruct (wait_rejected_prefix p func data (deadline_of st p) pre
              ((t, m) :: rest)
              (with_log st (log st ++ ECreateCollector (p_id p) :: timer_effects p))
              Hall) as (st1 & Hw & Hl & Hc & Hr).
  rewrite Hw, (wait_accept p func data _ t m rest st1 d' Hx Hacc Hb).
  cbn. rewrite Hl, Hc, Hr. cbn. rewrite <- !app_assoc. reflexivity.
Qed.

(** No answer before the timer fires: [collect] resolves with the
    inactivity message and the data it was given, at the time the timer
    fires, after clearing the phase's children. *)
Theorem collect_inactivity {D} (p : phase D) func (data : D) (st : state) :
  p_function p = Some func ->
  duration p <> 0%Z ->
  match inbox st with
  | [] => True
  | (t, _) :: _ => (now st + node_delay (duration p) <= t)%Z
  end ->
  collect p data st =
  (Ok (PhaseReturn (Some (Message inactivity_string)) data),
   {| now := now st + node_delay (duration p); inbox := inbox st;
      log := log st ++ [ECreateCollector (p_id p); ESetTimeout (duration p);
                        ETimerFired; EStop; EClearChildren (p_id p);
                        ESend inactivity_string;
                        EStore (p_id p) (Message inactivity_string)];
      cleared := p_id p :: cleared st; ran := ran st |}).
Proof.
  intros Hf Hd Hfirst.
  rewrite (collect_eq p func data st Hf). unfold deadline_of, timer_effects.
  apply Z.eqb_neq in Hd. rewrite Hd. unfold bind.
  assert (Hpre : match inbox st with
                 | [] => True
                 | (t, _) :: _ =>
                     before_deadline (Some (now st + node_delay (duration p))%Z) t = false
                 end).
  { revert Hfirst. destruct (inbox st) as [|[t m] rest]; [auto|].
    intros H. cbn. apply Z.ltb_ge. exact H. }
  pose proof (wait_timer_first p func data
                (Some (now st + node_delay (duration p))%Z) (inbox st)
                (with_log st (log st ++ [ECreateCollector (p_id p);
                                         ESetTimeout (duration p)])) Hpre) as Hw.
  rewrite Hw. cbn. rewrite <- app_assoc. reflexivity.
Qed.

(** *** Instances of the properties above *)

Lemma indexesOf_stable_under_growth_witness :
  Forall (fun p => In (p_id p) [1; 5]) [leaf 5 None; leaf 1 None] /\
  indexesOf ([1; 5] ++ [5; 2]) [leaf 5 None; leaf 1 None] =
  indexesOf [1; 5] [leaf 5 None; leaf 1 None].
Proof.
  assert (H : Forall (fun p => In (p_id p) [1; 5]) [leaf 5 None; leaf 1 None])
    by (repeat constructor; cbn; auto).
  split; [exact H|].
  exact (indexesOf_stable_under_growth [1; 5] [5; 2] _ H).
Defined.

Lemma execute_keeps_earlier_indexes_witness :
  In (p_id (leaf 7 None))
     (ran {| now := 0; inbox := []; log := []; cleared := []; ran := [7] |}) /\
  indexOf (ran (snd (execute 0 (leaf 1 None)
                       {| now := 0; inbox := []; log := []; cleared := [];
                          ran := [7] |}))) (leaf 7 None) =
  indexOf [7] (leaf 7 None).
Proof.
  assert (H : In (p_id (leaf 7 None))
                 (ran {| now := 0; inbox := []; log := []; cleared := [];
                         ran := [7] |})) by (cbn; auto).
  split; [exact H|].
  exact (execute_keeps_earlier_indexes 0 (leaf 1 None) (leaf 7 None) _ H).
Defined.

Lemma execute_root_index_witness :
  ~ In (p_id (leaf 1 None)) (ran (init_state [])) /\
  indexOf (ran (snd (execute 0 (leaf 1 None) (init_state [])))) (leaf 1 None) = 0%Z.
Proof.
  assert (H : ~ In (p_id (leaf 1 None)) (ran (init_state []))) by (cbn; auto).
  split; [exact H|].
  exact (execute_root_index 0 (leaf 1 None) (init_state []) H).
Defined.

Lemma collect_accepts_after_rejections_witness :
  let st := init_state [(1%Z, msg "no"); (2%Z, msg "yes")] in
  p_function picky_step = Some picky /\
  inbox st = [(1%Z, msg "no")] ++ (2%Z, msg "yes") :: [] /\
  all_rejected picky 0 (deadline_of st picky_step) [(1%Z, msg "no")] /\
  before_deadline (deadline_of st picky_step) 2 = true /\
  content (msg "yes") <> "exit"%string /\
  picky (msg "yes") 0 = Returns 1 /\
  fst (collect picky_step 0 st) = Ok (PhaseReturn (Some (msg "yes")) 1).
Proof.
  intros st.
  assert (H1 : p_function picky_step = Some picky) by reflexivity.
  assert (H2 : inbox st = [(1%Z, msg "no")] ++ (2%Z, msg "yes") :: [])
    by reflexivity.
  assert (H3 : all_rejected picky 0 (deadline_of st picky_step) [(1%Z, msg "no")]).
  { constructor; [|constructor].
    split; [reflexivity|]. split; [cbn; discriminate|].
    exists "say yes"%string. reflexivity. }
  assert (H4 : before_deadline (deadline_of st picky_step) 2 = true)
    by reflexivity.
  assert (H5 : content (msg "yes") <> "exit"%string) by (cbn; discriminate).
  assert (H6 : picky (msg "yes") 0 = Returns 1) by reflexivity.
  split; [exact H1|]. split; [exact H2|]. split; [exact H3|].
  split; [exact H4|]. split; [exact H5|]. split; [exact H6|].
  rewrite (collect_accepts_after_rejections picky_step picky 0 st
             [(1%Z, msg "no")] 2%Z (msg "yes") [] 1 H1 H2 H3 H4 H5 H6).
  reflexivity.
Defined.

Lemma collect_inactivity_witness :
  p_function (leaf 1 None) = Some accept_all /\
  duration (leaf 1 None) <> 0%Z /\
  fst (collect (leaf 1 None) 0 (init_state [])) =
  Ok (PhaseReturn (Some (Message inactivity_string)) 0).
Proof.
  assert (H1 : p_function (leaf 1 None) = Some accept_all) by reflexivity.
  assert (H2 : duration (leaf 1 None) <> 0%Z) by (cbn; discriminate).
  split; [exact H1|]. split; [exact H2|].
  rewrite (collect_inactivity (leaf 1 None) accept_all 0 (init_state []) H1 H2 I).
  reflexivity.
Defined.
